(** * nosync.c: the LD_PRELOAD shim that turns sync() into a no-op

    The translation unit
    [backends/debian/meta-n3x/recipes-support/gptfdisk-wsl-fix/files/nosync.c]
    consists of one feature-test macro, one system include and one function
    definition:

<<
      #define _GNU_SOURCE
      #include <unistd.h>

      void sync(void) {
          return;
      }
>>

    The development has three layers.
    - [Syntax]: the fragment of C needed to write the unit down as it is,
      together with bodies that the unit does NOT contain (calls, loads and
      stores), so that "the body performs no call" is a fact about this
      unit and not about the syntax.
    - [Semantics]: a process state (errno, objects with static storage,
      environment, mounted filesystems with their page cache), an outcome
      monad that records the events a run emits and the statements it
      executes, and the execution of statements, bodies and calls.
    - the shim itself: [sync_def] (the definition as written), [sync] (its
      shallow embedding in the monad), [nosync_c] (the translation unit),
      [nosync_so] (the shared object built from it) and the interleaving
      machine that runs concurrent callers. *)

From Stdlib Require Import ZArith Lia.
From stdpp Require Import base option strings list gmap sets.

#[local] Set Warnings "-register-all".
Local Open Scope Z_scope.
Local Open Scope string_scope.
Local Open Scope list_scope.

(** ** Syntax *)

Module Syntax.

Inductive ctype : Type :=
| Tvoid
| Tint
| Tlong
| Tptr (t : ctype).

(** Storage-class specifier of a definition at file scope. [SCnone] is a
    definition written without specifier: external linkage. *)
Inductive storage_class : Type :=
| SCnone
| SCstatic
| SCextern.

(** Objects a statement can read or write. [errno] is kept apart from the
    named objects with static storage duration. *)
Inductive lvalue : Type :=
| Lerrno
| Lobject (x : string).

Inductive expr : Type :=
| Econst (z : Z)
| Eparam (i : nat)
| Eload (lv : lvalue)
| Ecall (f : string) (args : list expr).

Inductive stmt : Type :=
| Sexpr (e : expr)                 (* e;            *)
| Sstore (lv : lvalue) (e : expr)  (* lv = e;       *)
| Sreturn (r : option expr).       (* return;  return e; *)

(** A function definition: declaration specifiers, declarator and the
    statements of its compound statement. [fn_params = []] with
    [fn_variadic = false] is the prototype [(void)]. [fn_attrs] holds the
    attributes of the declarator (calling-convention or visibility
    attributes would be listed here). *)
Record fundef : Type := {
  fn_storage : storage_class;
  fn_return : ctype;
  fn_name : string;
  fn_params : list (ctype * string);
  fn_variadic : bool;
  fn_attrs : list string;
  fn_body : list stmt
}.

(** A definition of an object at file scope. *)
Record objdef : Type := {
  ob_storage : storage_class;
  ob_type : ctype;
  ob_name : string;
  ob_init : option Z
}.

(** What a translation unit is made of, in source order. A system header
    brings declarations (prototypes, extern objects, macros) into scope;
    it defines no function and no object of the unit. *)
Inductive item : Type :=
| Idefine (macro : string)
| Iinclude (header : string)
| Ifundef (f : fundef)
| Iobjdef (o : objdef).

Definition translation_unit : Type := list item.

(** *** Syntactic footprint *)

Fixpoint expr_calls (e : expr) : list string :=
  match e with
  | Econst _ | Eparam _ | Eload _ => []
  | Ecall f args => f :: flat_map expr_calls args
  end.

Fixpoint expr_loads (e : expr) : list lvalue :=
  match e with
  | Econst _ | Eparam _ => []
  | Eload lv => [lv]
  | Ecall _ args => flat_map expr_loads args
  end.

Definition stmt_calls (s : stmt) : list string :=
  match s with
  | Sexpr e => expr_calls e
  | Sstore _ e => expr_calls e
  | Sreturn (Some e) => expr_calls e
  | Sreturn None => []
  end.

Definition stmt_loads (s : stmt) : list lvalue :=
  match s with
  | Sexpr e => expr_loads e
  | Sstore _ e => expr_loads e
  | Sreturn (Some e) => expr_loads e
  | Sreturn None => []
  end.

Definition stmt_stores (s : stmt) : list lvalue :=
  match s with
  | Sstore lv _ => [lv]
  | _ => []
  end.

Definition body_calls (b : list stmt) : list string := flat_map stmt_calls b.
Definition body_loads (b : list stmt) : list lvalue := flat_map stmt_loads b.
Definition body_stores (b : list stmt) : list lvalue := flat_map stmt_stores b.

(** *** What a unit defines *)

Definition fundefs (tu : translation_unit) : list fundef :=
  omap (fun i => match i with Ifundef f => Some f | _ => None end) tu.

Definition objdefs (tu : translation_unit) : list objdef :=
  omap (fun i => match i with Iobjdef o => Some o | _ => None end) tu.

Definition has_external_linkage (sc : storage_class) : bool :=
  match sc with
  | SCstatic => false
  | SCnone | SCextern => true
  end.

(** Function definitions that end up in the dynamic symbol table of the
    shared object ([gcc -shared -fPIC], default visibility). *)
Definition exported_fundefs (tu : translation_unit) : list fundef :=
  filter (fun f => has_external_linkage (fn_storage f) = true) (fundefs tu).

Definition exported_objdefs (tu : translation_unit) : list objdef :=
  filter (fun o => has_external_linkage (ob_storage o) = true) (objdefs tu).

(** Every symbol the unit defines with external linkage. *)
Definition defined_symbols (tu : translation_unit) : list string :=
  (fn_name <$> exported_fundefs tu) ++ (ob_name <$> exported_objdefs tu).

End Syntax.
Export Syntax.

(** ** Process state, events and the outcome monad *)

Module Semantics.

(** A mounted filesystem as the kernel sees it: blocks that are dirty in
    the page cache and blocks that have reached the backing store. *)
Record filesystem : Type := {
  fs_type : string;
  fs_dirty : gset Z;
  fs_durable : gset Z
}.

(** Everything a caller of the shim could observe. *)
Record process : Type := {
  errno : Z;
  objects : gmap string Z;
  environ : gmap string string;
  mounts : gmap string filesystem
}.

(** What a run does besides changing the state. Loads and stores are the
    accesses to shared objects; everything that can block, perform I/O,
    allocate, lock or create a thread happens inside a function reached by
    a call through the dynamic linker, which reports it as it sees fit. *)
Inductive event : Type :=
| EvLoad (lv : lvalue)
| EvStore (lv : lvalue) (v : Z)
| EvCall (f : string) (args : list Z)
| EvSyscall (name : string) (args : list Z)
| EvAlloc (bytes : Z)
| EvLock (mutex : Z)
| EvSpawn (thread : Z).

Inductive fault : Type :=
| Funresolved (f : string)   (* no loaded object defines the symbol *)
| Fvoid_value                (* the value of a void expression is used *)
| Farity                     (* call with the wrong number of arguments *)
| Fparam (i : nat).          (* no such parameter *)

(** A run either completes with a value, the state it leaves, the events
    it emitted and the number of statements it executed, or never returns
    to its caller, or goes wrong. *)
Inductive outcome (A : Type) : Type :=
| Done (a : A) (p : process) (evs : list event) (steps : nat)
| Hang
| Fault (f : fault).
Arguments Done {A} a p evs steps.
Arguments Hang {A}.
Arguments Fault {A} f.

Definition M (A : Type) : Type := process -> outcome A.

Definition ret {A} (a : A) : M A := fun p => Done a p [] 0%nat.

Definition bind {A B} (m : M A) (k : A -> M B) : M B :=
  fun p =>
    match m p with
    | Done a p1 evs1 n1 =>
        match k a p1 with
        | Done b p2 evs2 n2 => Done b p2 (evs1 ++ evs2) (n1 + n2)%nat
        | Hang => Hang
        | Fault f => Fault f
        end
    | Hang => Hang
    | Fault f => Fault f
    end.

Definition fail {A} (f : fault) : M A := fun _ => Fault f.
Definition emit (e : event) : M unit := fun p => Done tt p [e] 0%nat.
Definition tick : M unit := fun p => Done tt p [] 1%nat.
Definition get : M process := fun p => Done p p [] 0%nat.
Definition put (p : process) : M unit := fun _ => Done tt p [] 0%nat.

Notation "'let*' x := m 'in' k" := (bind m (fun x => k))
  (at level 10, x binder, m at level 100, k at level 200).
Notation "m ;;; k" := (bind m (fun _ => k))
  (at level 100, k at level 200, right associativity).

Definition read (lv : lvalue) (p : process) : Z :=
  match lv with
  | Lerrno => errno p
  | Lobject x => default 0 (objects p !! x)
  end.

Definition write (lv : lvalue) (v : Z) (p : process) : process :=
  match lv with
  | Lerrno =>
      {| errno := v; objects := objects p;
         environ := environ p; mounts := mounts p |}
  | Lobject x =>
      {| errno := errno p; objects := <[x := v]> (objects p);
         environ := environ p; mounts := mounts p |}
  end.

(** A function reached through the dynamic linker: arguments in, value out
    ([None] for a function returning void). *)
Definition cfun : Type := list Z -> M (option Z).

Definition need_value (v : option Z) : M Z :=
  match v with
  | Some z => ret z
  | None => fail Fvoid_value
  end.

(** How control leaves a statement. *)
Inductive flow : Type :=
| Fnext
| Freturn (v : option Z).

Section Exec.

(** The binding of every other symbol of the process, whatever it is. *)
Variable ext : string -> option cfun.

(** The arguments of the current activation. *)
Variable actuals : list Z.

Fixpoint eval_expr (e : expr) : M (option Z) :=
  match e with
  | Econst z => ret (Some z)
  | Eparam i =>
      match actuals !! i with
      | Some z => ret (Some z)
      | None => fail (Fparam i)
      end
  | Eload lv =>
      emit (EvLoad lv) ;;;
      let* p := get in
      ret (Some (read lv p))
  | Ecall f args =>
      let* vs := (fix eval_args (l : list expr) : M (list Z) :=
               match l with
               | [] => ret []
               | a :: l' =>
                   let* v := eval_expr a in
                   let* z := need_value v in
                   let* zs := eval_args l' in
                   ret (z :: zs)
               end) args in
      match ext f with
      | None => fail (Funresolved f)
      | Some c => emit (EvCall f vs) ;;; c vs
      end
  end.

Definition exec_stmt (s : stmt) : M flow :=
  match s with
  | Sexpr e =>
      let* _ := eval_expr e in
      tick ;;;
      ret Fnext
  | Sstore lv e =>
      let* v := eval_expr e in
      let* z := need_value v in
      emit (EvStore lv z) ;;;
      let* p := get in
      put (write lv z p) ;;;
      tick ;;;
      ret Fnext
  | Sreturn None =>
      tick ;;;
      ret (Freturn None)
  | Sreturn (Some e) =>
      let* v := eval_expr e in
      tick ;;;
      ret (Freturn v)
  end.

(** The statements of a compound statement, in order; control that reaches
    the closing brace returns without a value. *)
Fixpoint exec_body (b : list stmt) : M (option Z) :=
  match b with
  | [] => ret None
  | s :: k =>
      let* fl := exec_stmt s in
      match fl with
      | Fnext => exec_body k
      | Freturn v => ret v
      end
  end.

End Exec.

(** A call of a function defined in C: the arguments must match the
    prototype, and a function returning void delivers no value. *)
Definition arity_ok (f : fundef) (args : list Z) : bool :=
  if fn_variadic f
  then bool_decide (length (fn_params f) <= length args)%nat
  else bool_decide (length args = length (fn_params f)).

Definition call_fundef (ext : string -> option cfun) (f : fundef) : cfun :=
  fun args =>
    if arity_ok f args
    then
      let* v := exec_body ext args (fn_body f) in
      match fn_return f, v with
      | Tvoid, Some _ => fail Fvoid_value
      | Tvoid, None => ret None
      | _, _ => ret v
      end
    else fail Farity.

End Semantics.
Export Semantics.

(** Two outcomes a caller cannot tell apart: same value, same state, same
    events. The number of executed statements is time, not state. *)
Definition obs_eq {A} (o1 o2 : outcome A) : Prop :=
  match o1, o2 with
  | Done a1 p1 evs1 _, Done a2 p2 evs2 _ => a1 = a2 /\ p1 = p2 /\ evs1 = evs2
  | Hang, Hang => True
  | Fault f1, Fault f2 => f1 = f2
  | _, _ => False
  end.

Definition completes {A} (o : outcome A) : bool :=
  match o with
  | Done _ _ _ _ => true
  | Hang | Fault _ => false
  end.

(** [n] invocations one after the other. *)
Fixpoint invoke_n (n : nat) (m : M unit) : M unit :=
  match n with
  | O => ret tt
  | S n' => m ;;; invoke_n n' m
  end.

(** ** Dynamic linking *)

Module Linking.

(** A loaded object and the functions its dynamic symbol table exports. *)
Record shared_object : Type := {
  so_name : string;
  so_dynsym : list (string * cfun)
}.

Definition lookup_symbol (so : shared_object) (sym : string) : option cfun :=
  snd <$> find (fun e => bool_decide (fst e = sym)) (so_dynsym so).

(** The lookup scope of a process is the list of its loaded objects in
    search order; a reference binds to the first object that defines the
    symbol. Objects named in LD_PRELOAD are placed before the libraries. *)
Fixpoint resolve (scope : list shared_object) (sym : string) : option cfun :=
  match scope with
  | [] => None
  | so :: rest =>
      match lookup_symbol so sym with
      | Some c => Some c
      | None => resolve rest sym
      end
  end.

(** [gcc -shared -fPIC -o name tu]: the object exports every function the
    unit defines with external linkage, each bound to its body. *)
Definition build (ext : string -> option cfun) (name : string)
    (tu : translation_unit) : shared_object :=
  {| so_name := name;
     so_dynsym := (fun f => (fn_name f, call_fundef ext f)) <$> exported_fundefs tu |}.

End Linking.
Export Linking.

(** ** The shim *)

(** [void sync(void) { return; }] as written. *)
Definition sync_def : fundef := {|
  fn_storage := SCnone;
  fn_return := Tvoid;
  fn_name := "sync";
  fn_params := [];
  fn_variadic := false;
  fn_attrs := [];
  fn_body := [Sreturn None]
|}.

(** The whole translation unit, in source order. *)
Definition nosync_c : translation_unit :=
  [Idefine "_GNU_SOURCE"; Iinclude "unistd.h"; Ifundef sync_def].

(** The shallow embedding of [sync]: no argument, no value, and the one
    statement [return;] it executes. *)
Definition sync : M unit :=
  tick ;;;
  ret tt.

(** [gcc -shared -fPIC -o nosync.so nosync.c] *)
Definition nosync_so (ext : string -> option cfun) : shared_object :=
  build ext "nosync.so" nosync_c.

(** ** Concurrent callers *)

Module Threads.

(** A caller: how many invocations it still has to make, and the rest of
    the body of the invocation it is in ([None] between invocations). *)
Record thread : Type := {
  pending : nat;
  frame : option (list stmt)
}.

Inductive progress : Type :=
| Stepped (t : thread) (p : process) (evs : list event)
| Idle                  (* nothing left to do *)
| Blocked               (* inside a call that does not return *)
| Crashed (f : fault).

Section Machine.

Variable ext : string -> option cfun.

(** The function the callers invoke. *)
Variable callee : fundef.

(** One scheduling quantum: enter the function, execute its next
    statement, or return from it. *)
Definition step_thread (t : thread) (p : process) : progress :=
  match frame t with
  | None =>
      match pending t with
      | O => Idle
      | S n => Stepped {| pending := n; frame := Some (fn_body callee) |} p []
      end
  | Some [] => Stepped {| pending := pending t; frame := None |} p []
  | Some (s :: k) =>
      match exec_stmt ext [] s p with
      | Done Fnext p' evs _ =>
          Stepped {| pending := pending t; frame := Some k |} p' evs
      | Done (Freturn _) p' evs _ =>
          Stepped {| pending := pending t; frame := None |} p' evs
      | Hang => Blocked
      | Fault f => Crashed f
      end
  end.

(** The threads of the process and the state they share. *)
Definition config : Type := list thread * process.

(** The scheduler picks thread [tid]; a thread that cannot move leaves
    the configuration as it is. The events of the step are returned. *)
Definition step_machine (tid : nat) (c : config) : config * list event :=
  match fst c !! tid with
  | None => (c, [])
  | Some t =>
      match step_thread t (snd c) with
      | Stepped t' p' evs => ((<[tid := t']> (fst c), p'), evs)
      | Idle | Blocked | Crashed _ => (c, [])
      end
  end.

(** An interleaving is the list of the scheduler's picks. *)
Fixpoint run_schedule (sched : list nat) (c : config) : config * list event :=
  match sched with
  | [] => (c, [])
  | tid :: rest =>
      let '(c1, evs1) := step_machine tid c in
      let '(c2, evs2) := run_schedule rest c1 in
      (c2, evs1 ++ evs2)
  end.

Definition event_access (e : event) : option lvalue :=
  match e with
  | EvLoad lv | EvStore lv _ => Some lv
  | _ => None
  end.

Definition event_write (e : event) : option lvalue :=
  match e with
  | EvStore lv _ => Some lv
  | _ => None
  end.

(** Two steps conflict when they touch a common object and one of them
    writes it. *)
Definition conflict (evs1 evs2 : list event) : Prop :=
  exists lv,
    (lv ∈ omap event_write evs1 /\ lv ∈ omap event_access evs2) \/
    (lv ∈ omap event_access evs1 /\ lv ∈ omap event_write evs2).

(** A configuration has a data race when two different threads are both
    able to take a step and these steps conflict. *)
Definition racy (c : config) : Prop :=
  exists i j ti tj ti' tj' pi pj evsi evsj,
    i <> j /\
    fst c !! i = Some ti /\ fst c !! j = Some tj /\
    step_thread ti (snd c) = Stepped ti' pi evsi /\
    step_thread tj (snd c) = Stepped tj' pj evsj /\
    conflict evsi evsj.

(** Work left in a thread, counted in scheduling quanta, when every
    invocation takes at most [S (length (fn_body callee))] of them. *)
Definition thread_work (t : thread) : nat :=
  (pending t * S (S (length (fn_body callee))) +
   match frame t with
   | None => 0
   | Some k => S (length k)
   end)%nat.

Definition pool_work (ths : list thread) : nat :=
  foldr (fun t n => (thread_work t + n)%nat) 0%nat ths.

Definition finished (ths : list thread) : bool :=
  forallb (fun t => match pending t, frame t with
                    | O, None => true
                    | _, _ => false
                    end) ths.

End Machine.

(** Threads that are about to invoke the function [n] times each, for
    every [n] of the list. *)
Definition callers (ns : list nat) : list thread :=
  (fun n => {| pending := n; frame := None |}) <$> ns.

(** The interleaving without overlap: thread [off] makes all its
    invocations, then thread [off + 1], and so on. An invocation takes
    two quanta, one to enter the function and one for [return;]. *)
Fixpoint sequential_schedule (off : nat) (ns : list nat) : list nat :=
  match ns with
  | [] => []
  | n :: rest => replicate (2 * n) off ++ sequential_schedule (S off) rest
  end.

End Threads.
Export Threads.

(** ** Reading an outcome *)

Definition value_of {A} (o : outcome A) : option A :=
  match o with
  | Done a _ _ _ => Some a
  | Hang | Fault _ => None
  end.

Definition state_of {A} (o : outcome A) : option process :=
  match o with
  | Done _ p _ _ => Some p
  | Hang | Fault _ => None
  end.

Definition events_of {A} (o : outcome A) : option (list event) :=
  match o with
  | Done _ _ evs _ => Some evs
  | Hang | Fault _ => None
  end.

Definition steps_of {A} (o : outcome A) : option nat :=
  match o with
  | Done _ _ _ n => Some n
  | Hang | Fault _ => None
  end.

(** What the function looks like to a caller that has only its
    declaration. *)
Record prototype : Type := {
  pr_return : ctype;
  pr_name : string;
  pr_params : list ctype;
  pr_variadic : bool
}.

Definition prototype_of (f : fundef) : prototype :=
  {| pr_return := fn_return f;
     pr_name := fn_name f;
     pr_params := fst <$> fn_params f;
     pr_variadic := fn_variadic f |}.

(** A body without call, load or store. *)
Definition silent_stmt (s : stmt) : Prop :=
  stmt_calls s = [] /\ stmt_loads s = [] /\ stmt_stores s = [].

Definition silent_body (b : list stmt) : Prop :=
  body_calls b = [] /\ body_loads b = [] /\ body_stores b = [].

Definition silent_thread (t : thread) : Prop :=
  match frame t with
  | None => True
  | Some k => silent_body k
  end.

(** ** Bodies the unit does not have

    Used only to check that the model tells them apart from [sync_def]:
    a wrapper that forwards to the next definition of the symbol, a body
    that counts its invocations in a static object, and two functions a
    call could reach through the dynamic linker. *)

Module Other_bodies.

Definition forwarding_def : fundef := {|
  fn_storage := SCnone;
  fn_return := Tvoid;
  fn_name := "sync";
  fn_params := [];
  fn_variadic := false;
  fn_attrs := [];
  fn_body := [Sexpr (Ecall "next_sync" []); Sreturn None]
|}.

Definition counting_def : fundef := {|
  fn_storage := SCnone;
  fn_return := Tvoid;
  fn_name := "sync";
  fn_params := [];
  fn_variadic := false;
  fn_attrs := [];
  fn_body := [Sstore (Lobject "calls") (Econst 1); Sreturn None]
|}.

(** A flush that fails with EIO (5) after one system call per mount. *)
Definition failing_flush : cfun :=
  fun _ p =>
    Done None (write Lerrno 5 p) [EvSyscall "sync" []] (size (mounts p)).

(** A flush that never comes back. *)
Definition hanging_flush : cfun := fun _ _ => Hang.

Definition bind_next_sync (c : cfun) : string -> option cfun :=
  fun sym => if bool_decide (sym = "next_sync") then Some c else None.

Definition idle_process : process :=
  {| errno := 0; objects := ∅; environ := ∅; mounts := ∅ |}.

End Other_bodies.

(** * Properties *)

(** ** The monad *)

Lemma bind_done {A B} (m : M A) (k : A -> M B) p a p1 evs1 n1 b p2 evs2 n2 :
  m p = Done a p1 evs1 n1 ->
  k a p1 = Done b p2 evs2 n2 ->
  bind m k p = Done b p2 (evs1 ++ evs2) (n1 + n2)%nat.
Proof. intros Hm Hk. unfold bind. by rewrite Hm, Hk. Qed.

Lemma bind_ret_l {A B} (a : A) (k : A -> M B) p :
  completes (k a p) = true -> bind (ret a) k p = k a p.
Proof. unfold bind, ret. by destruct (k a p). Qed.

Lemma obs_eq_refl {A} (o : outcome A) : obs_eq o o.
Proof. by destruct o. Qed.

(** ** One invocation *)

Lemma sync_run p : sync p = Done tt p [] 1%nat.
Proof. reflexivity. Qed.

Lemma call_sync_def ext p : call_fundef ext sync_def [] p = Done None p [] 1%nat.
Proof. reflexivity. Qed.

Lemma call_sync_def_args ext a args p :
  call_fundef ext sync_def (a :: args) p = Fault Farity.
Proof. reflexivity. Qed.

(** The definition as written denotes the shallow embedding. *)
Lemma sync_def_denotes_sync ext p :
  call_fundef ext sync_def [] p = (sync ;;; ret None) p.
Proof. reflexivity. Qed.

Lemma invoke_n_sync n p : invoke_n n sync p = Done tt p [] n.
Proof.
  revert p. induction n as [|n IH]; intros p; [reflexivity|].
  cbn [invoke_n]. by rewrite (bind_done _ _ _ _ _ _ _ _ _ _ _ (sync_run p) (IH p)).
Qed.

Lemma sync_def_silent : silent_body (fn_body sync_def).
Proof. by repeat split. Qed.

(** ** Silent bodies leave the process alone

    Nothing here is specific to [sync_def]: a body that contains no call,
    no load and no store cannot change the state, emit an event or hang,
    whatever the other symbols of the process are bound to. *)

Section Silent.

Context (ext : string -> option cfun) (actuals : list Z).

Lemma eval_expr_silent e p :
  expr_calls e = [] -> expr_loads e = [] ->
  (exists v, eval_expr ext actuals e p = Done v p [] 0%nat) \/
  (exists f, eval_expr ext actuals e p = Fault f).
Proof.
  destruct e as [z|i|lv|f args]; cbn [expr_calls expr_loads]; intros Hc Hl.
  - left. by exists (Some z).
  - cbn [eval_expr]. destruct (actuals !! i) as [z|].
    + left. by exists (Some z).
    + right. by exists (Fparam i).
  - discriminate.
  - discriminate.
Qed.

Lemma exec_stmt_silent s p :
  silent_stmt s ->
  (exists fl, exec_stmt ext actuals s p = Done fl p [] 1%nat) \/
  (exists f, exec_stmt ext actuals s p = Fault f).
Proof.
  intros (Hc & Hl & Hs). destruct s as [e|lv e|[e|]]; cbn in Hc, Hl, Hs.
  - destruct (eval_expr_silent e p Hc Hl) as [[v Hv]|[f Hf]].
    + left. exists Fnext. unfold exec_stmt, bind. by rewrite Hv.
    + right. exists f. unfold exec_stmt, bind. by rewrite Hf.
  - discriminate.
  - destruct (eval_expr_silent e p Hc Hl) as [[v Hv]|[f Hf]].
    + left. exists (Freturn v). unfold exec_stmt, bind. by rewrite Hv.
    + right. exists f. unfold exec_stmt, bind. by rewrite Hf.
  - left. by exists (Freturn None).
Qed.

Lemma silent_body_cons s k :
  silent_body (s :: k) <-> silent_stmt s /\ silent_body k.
Proof.
  unfold silent_body, silent_stmt, body_calls, body_loads, body_stores.
  cbn [flat_map]. rewrite !app_nil. tauto.
Qed.

Lemma silent_body_nil : silent_body [].
Proof. by repeat split. Qed.

Lemma exec_body_silent b p :
  silent_body b ->
  (exists v n, exec_body ext actuals b p = Done v p [] n /\ (n <= length b)%nat) \/
  (exists f, exec_body ext actuals b p = Fault f).
Proof.
  induction b as [|s k IH]; intros Hb.
  - left. exists None, 0%nat. split; [reflexivity | cbn; lia].
  - apply silent_body_cons in Hb as [Hs Hk].
    cbn [exec_body]. unfold bind.
    destruct (exec_stmt_silent s p Hs) as [[fl Hfl]|[f Hf]].
    + rewrite Hfl. destruct fl as [|v].
      * destruct (IH Hk) as [(v & n & Hrun & Hn)|[f Hf]].
        -- left. exists v, (1 + n)%nat. rewrite Hrun. split; [reflexivity | cbn; lia].
        -- right. exists f. by rewrite Hf.
      * left. exists v, 1%nat. split; [reflexivity | cbn; lia].
    + right. exists f. by rewrite Hf.
Qed.

End Silent.

(** ** The interleaving machine *)

Section Machine_facts.

Context (ext : string -> option cfun) (callee : fundef).

(** Every scheduling quantum a thread takes uses up work. *)
Lemma step_thread_work t p t' p' evs :
  step_thread ext callee t p = Stepped t' p' evs ->
  (thread_work callee t' < thread_work callee t)%nat.
Proof.
  unfold step_thread, thread_work. destruct t as [n [k|]]; cbn [pending frame].
  - destruct k as [|s k].
    + intros [= <- _ _]. cbn. lia.
    + destruct (exec_stmt ext [] s p) as [[|v] p1 evs1 n1| |f]; intros H;
        try discriminate; injection H as <- _ _; cbn; lia.
  - destruct n as [|n]; [discriminate|]. intros [= <- _ _]. cbn. lia.
Qed.

Hypothesis callee_silent : silent_body (fn_body callee).

Lemma step_thread_silent t p t' p' evs :
  silent_thread t ->
  step_thread ext callee t p = Stepped t' p' evs ->
  p' = p /\ evs = [] /\ silent_thread t'.
Proof.
  unfold step_thread, silent_thread. destruct t as [n [k|]]; cbn [pending frame].
  - destruct k as [|s k]; intros Hk.
    + intros [= <- <- <-]. done.
    + apply silent_body_cons in Hk as [Hs Hk].
      destruct (exec_stmt_silent ext [] s p Hs) as [[fl ->]|[f ->]]; [|discriminate].
      destruct fl; intros [= <- <- <-]; done.
  - intros _. destruct n as [|n]; [discriminate|]. intros [= <- <- <-]. done.
Qed.

(** A silent callee never leaves its caller waiting. *)
Lemma step_thread_never_blocked t p :
  silent_thread t -> step_thread ext callee t p <> Blocked.
Proof.
  unfold step_thread, silent_thread. destruct t as [n [k|]]; cbn [pending frame].
  - destruct k as [|s k]; intros Hk; [discriminate|].
    apply silent_body_cons in Hk as [Hs Hk].
    destruct (exec_stmt_silent ext [] s p Hs) as [[fl ->]|[f ->]]; [|discriminate].
    by destruct fl.
  - intros _. by destruct n.
Qed.

Lemma step_machine_silent tid ths p ths' p' evs :
  Forall silent_thread ths ->
  step_machine ext callee tid (ths, p) = ((ths', p'), evs) ->
  p' = p /\ evs = [] /\ Forall silent_thread ths'.
Proof.
  intros Hths. unfold step_machine. cbn [fst snd].
  destruct (ths !! tid) as [t|] eqn:Ht.
  - destruct (step_thread ext callee t p) as [t1 p1 evs1| | |f] eqn:Hstep.
    + intros [= <- <- <-].
      assert (silent_thread t) as Hsil by (by eapply Forall_lookup_1).
      destruct (step_thread_silent _ _ _ _ _ Hsil Hstep) as (-> & -> & Ht1).
      repeat split. by apply Forall_insert.
    + by intros [= <- <- <-].
    + by intros [= <- <- <-].
    + by intros [= <- <- <-].
  - by intros [= <- <- <-].
Qed.

(** Whatever the scheduler does, the shared state stays what it was and
    no event is emitted. *)
Lemma run_schedule_silent sched ths p ths' p' evs :
  Forall silent_thread ths ->
  run_schedule ext callee sched (ths, p) = ((ths', p'), evs) ->
  p' = p /\ evs = [] /\ Forall silent_thread ths'.
Proof.
  revert ths p ths' p' evs. induction sched as [|tid rest IH]; intros ths p ths' p' evs Hths.
  - by intros [= <- <- <-].
  - cbn [run_schedule].
    destruct (step_machine ext callee tid (ths, p)) as [[ths1 p1] evs1] eqn:Hstep.
    destruct (run_schedule ext callee rest (ths1, p1)) as [[ths2 p2] evs2] eqn:Hrun.
    intros [= <- <- <-].
    destruct (step_machine_silent _ _ _ _ _ _ Hths Hstep) as (-> & -> & Hths1).
    destruct (IH _ _ _ _ _ Hths1 Hrun) as (-> & -> & Hths2).
    done.
Qed.

Lemma silent_not_racy ths p :
  Forall silent_thread ths -> ~ racy ext callee (ths, p).
Proof.
  intros Hths (i & j & ti & tj & ti' & tj' & pi & pj & evsi & evsj &
               _ & Hi & Hj & Hsi & Hsj & lv & Hconf).
  cbn [fst snd] in *.
  assert (silent_thread ti) as Hti by (by eapply Forall_lookup_1).
  assert (silent_thread tj) as Htj by (by eapply Forall_lookup_1).
  destruct (step_thread_silent _ _ _ _ _ Hti Hsi) as (_ & -> & _).
  destruct (step_thread_silent _ _ _ _ _ Htj Hsj) as (_ & -> & _).
  cbn in Hconf. destruct Hconf as [[H _]|[H _]]; by apply elem_of_nil in H.
Qed.

End Machine_facts.

Lemma callers_silent ns : Forall silent_thread (callers ns).
Proof.
  unfold callers. apply Forall_fmap, Forall_forall. intros n _. exact I.
Qed.

Lemma run_schedule_app ext callee s1 s2 c :
  run_schedule ext callee (s1 ++ s2) c =
  let '(c1, evs1) := run_schedule ext callee s1 c in
  let '(c2, evs2) := run_schedule ext callee s2 c1 in
  (c2, evs1 ++ evs2).
Proof.
  revert c. induction s1 as [|tid s1 IH]; intros c.
  - cbn. by destruct (run_schedule ext callee s2 c).
  - cbn [app run_schedule].
    destruct (step_machine ext callee tid c) as [c0 evs0].
    rewrite IH.
    destruct (run_schedule ext callee s1 c0) as [c1 evs1].
    destruct (run_schedule ext callee s2 c1) as [c2 evs2].
    by rewrite app_assoc.
Qed.

(** ** Callers of [sync] *)

Section Sync_callers.

Context (ext : string -> option cfun).

(** A caller of [sync] that has something left to do can always move. *)
Lemma sync_caller_progress n k p :
  k = None \/ k = Some (fn_body sync_def) ->
  step_thread ext sync_def {| pending := n; frame := k |} p =
    match k, n with
    | None, O => Idle
    | None, S n' => Stepped {| pending := n'; frame := Some (fn_body sync_def) |} p []
    | Some _, _ => Stepped {| pending := n; frame := None |} p []
    end.
Proof. intros [-> | ->]; by destruct n. Qed.

(** Two quanta per invocation bring one caller to the end of its work
    and touch neither the other threads nor the state. *)
Lemma run_one_caller i n ths p :
  ths !! i = Some {| pending := n; frame := None |} ->
  run_schedule ext sync_def (replicate (2 * n) i) (ths, p) =
    ((<[i := {| pending := 0; frame := None |}]> ths, p), []).
Proof.
  revert ths. induction n as [|n IH]; intros ths Hi.
  - cbn. by rewrite list_insert_id.
  - assert (i < length ths)%nat as Hlt by (by eapply lookup_lt_Some).
    replace (2 * S n)%nat with (S (S (2 * n))) by lia.
    cbn [replicate run_schedule]. unfold step_machine at 1. cbn [fst snd].
    rewrite Hi. cbn [step_thread frame pending].
    unfold step_machine at 1. cbn [fst snd].
    rewrite list_lookup_insert_eq by done.
    cbn [step_thread frame pending fn_body sync_def exec_stmt].
    cbn [tick ret bind]. rewrite list_insert_insert_eq.
    rewrite IH by (by rewrite list_lookup_insert_eq).
    by rewrite list_insert_insert_eq.
Qed.

Lemma run_sequential_schedule done ns p :
  run_schedule ext sync_def (sequential_schedule (length done) ns)
      (done ++ callers ns, p) =
    ((done ++ callers (const 0%nat <$> ns), p), []).
Proof.
  revert done. induction ns as [|n rest IH]; intros done; [reflexivity|].
  cbn [sequential_schedule]. rewrite run_schedule_app.
  rewrite (run_one_caller (length done) n).
  2:{ by rewrite lookup_app_r, Nat.sub_diag by lia. }
  cbn [callers fmap list_fmap].
  rewrite insert_app_r_alt, Nat.sub_diag by lia. cbn [insert list_insert].
  specialize (IH (done ++ [{| pending := 0; frame := None |}])).
  rewrite length_app, Nat.add_1_r in IH. cbn [length] in IH.
  rewrite <- !app_assoc in IH. cbn [app] in IH.
  unfold callers in IH. rewrite IH. reflexivity.
Qed.

Lemma run_sequential_schedule_all ns p :
  run_schedule ext sync_def (sequential_schedule 0 ns) (callers ns, p) =
    ((callers (const 0%nat <$> ns), p), []).
Proof. exact (run_sequential_schedule [] ns p). Qed.

Lemma finished_callers_zero (ns : list nat) :
  finished (callers (const 0%nat <$> ns)) = true.
Proof. induction ns as [|n rest IH]; [reflexivity | exact IH]. Qed.

End Sync_callers.

(** ** Symbol resolution *)

Lemma lookup_symbol_build ext name tu sym :
  sym ∉ defined_symbols tu ->
  lookup_symbol (build ext name tu) sym = None.
Proof.
  unfold defined_symbols, lookup_symbol, build. cbn [so_dynsym].
  rewrite not_elem_of_app. intros [Hfun _].
  induction (exported_fundefs tu) as [|f l IH]; [reflexivity|].
  rewrite fmap_cons, not_elem_of_cons in Hfun. destruct Hfun as [Hne Hl].
  cbn [fmap list_fmap find fst]. rewrite bool_decide_eq_false_2 by congruence.
  by apply IH.
Qed.

(** An object that does not define a symbol is transparent for it,
    wherever it sits in the search order. *)
Lemma resolve_transparent before so after sym :
  lookup_symbol so sym = None ->
  resolve (before ++ so :: after) sym = resolve (before ++ after) sym.
Proof.
  intros Hso. induction before as [|b before IH].
  - cbn. by rewrite Hso.
  - cbn [app resolve]. by rewrite IH.
Qed.

(** The first definition in search order wins. *)
Lemma resolve_first so rest sym c :
  lookup_symbol so sym = Some c -> resolve (so :: rest) sym = Some c.
Proof. intros H. cbn. by rewrite H. Qed.

Lemma nosync_defined_symbols : defined_symbols nosync_c = ["sync"].
Proof. reflexivity. Qed.

Lemma sequential_schedule_length off ns :
  length (sequential_schedule off ns) = (2 * sum_list ns)%nat.
Proof.
  revert off. induction ns as [|n rest IH]; intros off; [reflexivity|].
  cbn [sequential_schedule]. rewrite length_app, length_replicate, IH.
  change (sum_list (n :: rest)) with (n + sum_list rest)%nat. lia.
Qed.

(** ** The model tells other bodies apart *)

Module Other_bodies_checks.
Import Other_bodies.

Example forwarding_sets_errno :
  call_fundef (bind_next_sync failing_flush) forwarding_def [] idle_process =
    Done None (write Lerrno 5 idle_process)
      [EvCall "next_sync" []; EvSyscall "sync" []] 2%nat.
Proof. reflexivity. Qed.

Example forwarding_can_hang :
  call_fundef (bind_next_sync hanging_flush) forwarding_def [] idle_process = Hang.
Proof. reflexivity. Qed.

Example forwarding_can_fail :
  call_fundef (fun _ => None) forwarding_def [] idle_process =
    Fault (Funresolved "next_sync").
Proof. reflexivity. Qed.

Example counting_changes_state :
  state_of (call_fundef (fun _ => None) counting_def [] idle_process) =
    Some (write (Lobject "calls") 1 idle_process).
Proof. reflexivity. Qed.

Example counting_is_not_silent : ~ silent_body (fn_body counting_def).
Proof. intros (_ & _ & H). discriminate H. Qed.

(** Two callers that have both entered the counting body race on its
    counter. *)
Example counting_callers_race :
  racy (fun _ => None) counting_def
    (fst (run_schedule (fun _ => None) counting_def [0; 1]%nat
            (callers [1; 1]%nat, idle_process))).
Proof.
  set (t := {| pending := 0; frame := Some [Sreturn None] |}).
  set (p := write (Lobject "calls") 1 idle_process).
  set (evs := [EvStore (Lobject "calls") 1]).
  exists 0%nat, 1%nat. do 2 eexists. exists t, t, p, p, evs, evs.
  split; [done|]. split; [reflexivity|]. split; [reflexivity|].
  split; [reflexivity|]. split; [reflexivity|].
  exists (Lobject "calls"). left. split; apply list_elem_of_here.
Qed.

End Other_bodies_checks.

(** * The claims *)

(** C1. Every invocation of the overriding [sync], in every process state
    and whatever the other symbols of the process are bound to, completes
    after its one [return;], leaves the whole state as it was (errno, the
    objects, the environment, and for every mount its dirty and its durable
    blocks, so nothing is flushed) and emits no event. The same holds for
    the invocation that follows any number [n] of earlier ones. *)
Theorem sync_is_a_pure_noop (ext : string -> option cfun) (p : process) (n : nat) :
  sync p = Done tt p [] 1%nat /\
  call_fundef ext sync_def [] p = Done None p [] 1%nat /\
  mounts <$> state_of (call_fundef ext sync_def [] p) = Some (mounts p) /\
  (invoke_n n sync ;;; sync) p = Done tt p [] (S n).
Proof.
  split; [apply sync_run|]. split; [apply call_sync_def|].
  split; [by rewrite call_sync_def|].
  rewrite (bind_done _ _ _ _ _ _ _ _ _ _ _ (invoke_n_sync n p) (sync_run p)).
  f_equal. lia.
Qed.

(** C2. The unit defines exactly one symbol, [sync]; it defines neither
    [fsync] nor [syncfs]. Hence, wherever the shared object sits in the
    search order of a process, [fsync] and [syncfs] resolve to what they
    resolve to without it, and a call [fsync(fd)] or [syncfs(fd)] made in
    that process has the outcome it has without the object, in every
    state; [sync] resolves to the override when the object comes first. *)
Theorem nosync_overrides_only_sync
    (ext : string -> option cfun) (before after : list shared_object)
    (fd : Z) (p : process) :
  defined_symbols nosync_c = ["sync"] /\
  ("fsync" ∉ defined_symbols nosync_c) /\
  ("syncfs" ∉ defined_symbols nosync_c) /\
  resolve (before ++ nosync_so ext :: after) "fsync" =
    resolve (before ++ after) "fsync" /\
  resolve (before ++ nosync_so ext :: after) "syncfs" =
    resolve (before ++ after) "syncfs" /\
  eval_expr (resolve (before ++ nosync_so ext :: after)) []
      (Ecall "fsync" [Econst fd]) p =
    eval_expr (resolve (before ++ after)) [] (Ecall "fsync" [Econst fd]) p /\
  eval_expr (resolve (before ++ nosync_so ext :: after)) []
      (Ecall "syncfs" [Econst fd]) p =
    eval_expr (resolve (before ++ after)) [] (Ecall "syncfs" [Econst fd]) p /\
  resolve (nosync_so ext :: after) "sync" = Some (call_fundef ext sync_def).
Proof.
  assert ("fsync" ∉ defined_symbols nosync_c) as Hfsync.
  { rewrite nosync_defined_symbols, list_elem_of_singleton. discriminate. }
  assert ("syncfs" ∉ defined_symbols nosync_c) as Hsyncfs.
  { rewrite nosync_defined_symbols, list_elem_of_singleton. discriminate. }
  assert (resolve (before ++ nosync_so ext :: after) "fsync" =
          resolve (before ++ after) "fsync") as Rfsync.
  { apply resolve_transparent. by apply lookup_symbol_build. }
  assert (resolve (before ++ nosync_so ext :: after) "syncfs" =
          resolve (before ++ after) "syncfs") as Rsyncfs.
  { apply resolve_transparent. by apply lookup_symbol_build. }
  split; [apply nosync_defined_symbols|]. split; [exact Hfsync|].
  split; [exact Hsyncfs|]. split; [exact Rfsync|]. split; [exact Rsyncfs|].
  split; [|split].
  - cbn [eval_expr]. by rewrite Rfsync.
  - cbn [eval_expr]. by rewrite Rsyncfs.
  - by apply resolve_first.
Qed.

(** C3. The one function the unit exports is named [sync], is written
    without storage-class specifier and without attribute (external
    linkage, the default calling convention), has the prototype
    [void sync(void)]: it accepts no argument and delivers no value. *)
Theorem sync_has_the_signature_of_sync
    (ext : string -> option cfun) (a : Z) (args : list Z) (p : process) :
  exported_fundefs nosync_c = [sync_def] /\
  prototype_of sync_def =
    {| pr_return := Tvoid; pr_name := "sync";
       pr_params := []; pr_variadic := false |} /\
  fn_storage sync_def = SCnone /\
  fn_attrs sync_def = [] /\
  call_fundef ext sync_def (a :: args) p = Fault Farity /\
  value_of (call_fundef ext sync_def [] p) = Some None.
Proof.
  split; [reflexivity|]. split; [reflexivity|]. split; [reflexivity|].
  split; [reflexivity|]. split; [apply call_sync_def_args|].
  by rewrite call_sync_def.
Qed.

(** C4. For every [n], invoking the override [n] times in a row is
    observationally equal to invoking it zero times and leaves the state it
    started from. For every number of callers, every number of invocations
    per caller ([ns]) and every interleaving of them ([sched], complete or
    not), the shared state at the end is the initial one and no event was
    emitted; the interleaving without overlap does complete every one of
    the invocations. *)
Theorem sync_n_fold_is_identity
    (ext : string -> option cfun) (n : nat) (p : process)
    (ns : list nat) (sched : list nat) :
  obs_eq (invoke_n n sync p) (invoke_n 0 sync p) /\
  state_of (invoke_n n sync p) = Some p /\
  snd (fst (run_schedule ext sync_def sched (callers ns, p))) = p /\
  snd (run_schedule ext sync_def sched (callers ns, p)) = [] /\
  run_schedule ext sync_def (sequential_schedule 0 ns) (callers ns, p) =
    ((callers (const 0%nat <$> ns), p), []).
Proof.
  split; [by rewrite !invoke_n_sync|]. split; [by rewrite invoke_n_sync|].
  destruct (run_schedule ext sync_def sched (callers ns, p))
    as [[ths' p'] evs] eqn:Hrun.
  destruct (run_schedule_silent ext sync_def sync_def_silent _ _ _ _ _ _
              (callers_silent ns) Hrun) as (-> & -> & _).
  split; [reflexivity|]. split; [reflexivity|].
  apply run_sequential_schedule_all.
Qed.

(** C5. The overriding [sync] cannot fail: in every state it completes,
    it is never a fault, it delivers no value (so no error value), it
    leaves errno alone, it emits no event (no system call, so no I/O; no
    allocation), and its body calls nothing. No precondition is needed:
    the statement holds for every [p] and every [ext]. *)
Theorem sync_cannot_fail (ext : string -> option cfun) (p : process) :
  completes (sync p) = true /\
  completes (call_fundef ext sync_def [] p) = true /\
  (forall f, call_fundef ext sync_def [] p <> Fault f) /\
  value_of (call_fundef ext sync_def [] p) = Some None /\
  errno <$> state_of (call_fundef ext sync_def [] p) = Some (errno p) /\
  events_of (call_fundef ext sync_def [] p) = Some [] /\
  body_calls (fn_body sync_def) = [].
Proof.
  rewrite call_sync_def, sync_run. repeat split. intros f. discriminate.
Qed.

(** C6. Every invocation terminates and never blocks: the call is never
    [Hang], it executes exactly one statement in every state, so its cost
    is the same in any two states whatever their mount tables are, and it
    emits no event (no system call that could block or suspend, no thread
    created). With concurrent callers, two scheduling quanta per invocation
    are enough to complete all of them. *)
Theorem sync_terminates_in_one_step
    (ext : string -> option cfun) (p q : process) (ns : list nat) :
  call_fundef ext sync_def [] p <> Hang /\
  steps_of (call_fundef ext sync_def [] p) = Some 1%nat /\
  steps_of (sync p) = steps_of (sync q) /\
  events_of (call_fundef ext sync_def [] p) = Some [] /\
  finished (fst (fst (run_schedule ext sync_def (sequential_schedule 0 ns)
                        (callers ns, p)))) = true /\
  length (sequential_schedule 0 ns) = (2 * sum_list ns)%nat.
Proof.
  rewrite call_sync_def. split; [discriminate|].
  split; [reflexivity|]. split; [reflexivity|]. split; [reflexivity|].
  split; [|apply sequential_schedule_length].
  rewrite run_sequential_schedule_all. apply finished_callers_zero.
Qed.

(** C7. The unit defines no object at file scope, static or not; its only
    function definition is [sync_def], which carries no attribute (so no
    constructor or destructor runs at load or unload) and whose body
    contains no call, no load and no store. Any number of invocations
    leaves every state as it was. *)
Theorem nosync_owns_no_state
    (ext : string -> option cfun) (n : nat) (p : process) :
  objdefs nosync_c = [] /\
  fundefs nosync_c = [sync_def] /\
  fn_attrs sync_def = [] /\
  silent_body (fn_body sync_def) /\
  state_of (call_fundef ext sync_def [] p) = Some p /\
  invoke_n n sync p = Done tt p [] n.
Proof.
  split; [reflexivity|]. split; [reflexivity|]. split; [reflexivity|].
  split; [apply sync_def_silent|]. split; [by rewrite call_sync_def|].
  apply invoke_n_sync.
Qed.

(** C8. Two invocations in any two states [p1] and [p2] (any errno, any
    objects, any environment, any mounts) and under any two bindings
    [ext1] and [ext2] of the other symbols of the process behave alike:
    the same (absent) value, the same (empty) list of events, the same
    number of statements, each leaving its own state as it found it. *)
Theorem sync_is_input_independent
    (ext1 ext2 : string -> option cfun) (p1 p2 : process) :
  value_of (call_fundef ext1 sync_def [] p1) =
    value_of (call_fundef ext2 sync_def [] p2) /\
  events_of (call_fundef ext1 sync_def [] p1) =
    events_of (call_fundef ext2 sync_def [] p2) /\
  events_of (call_fundef ext1 sync_def [] p1) = Some [] /\
  steps_of (call_fundef ext1 sync_def [] p1) =
    steps_of (call_fundef ext2 sync_def [] p2) /\
  state_of (call_fundef ext1 sync_def [] p1) = Some p1 /\
  state_of (call_fundef ext2 sync_def [] p2) = Some p2.
Proof. rewrite !call_sync_def. repeat split. Qed.

(** C9. For any number of callers invoking the override any number of
    times each, under every interleaving: no reachable configuration has a
    data race, no event at all is emitted (in particular no lock is taken
    and nothing is loaded or stored), and the body itself contains no
    load, no store and no call. *)
Theorem sync_callers_never_race
    (ext : string -> option cfun) (ns : list nat) (sched : list nat)
    (p : process) :
  ~ racy ext sync_def (fst (run_schedule ext sync_def sched (callers ns, p))) /\
  snd (run_schedule ext sync_def sched (callers ns, p)) = [] /\
  body_loads (fn_body sync_def) = [] /\
  body_stores (fn_body sync_def) = [] /\
  body_calls (fn_body sync_def) = [].
Proof.
  destruct (run_schedule ext sync_def sched (callers ns, p))
    as [[ths' p'] evs] eqn:Hrun.
  destruct (run_schedule_silent ext sync_def sync_def_silent _ _ _ _ _ _
              (callers_silent ns) Hrun) as (-> & -> & Hths).
  split; [|by repeat split].
  cbn [fst]. by apply silent_not_racy; [apply sync_def_silent|].
Qed.

(** C10. Every invocation leaves errno as it found it, and the body
    neither loads nor stores errno nor calls anything that could. *)
Theorem sync_preserves_errno (ext : string -> option cfun) (p : process) :
  errno <$> state_of (call_fundef ext sync_def [] p) = Some (errno p) /\
  errno <$> state_of (sync p) = Some (errno p) /\
  (Lerrno ∉ body_loads (fn_body sync_def)) /\
  (Lerrno ∉ body_stores (fn_body sync_def)) /\
  body_calls (fn_body sync_def) = [].
Proof.
  rewrite call_sync_def, sync_run.
  split; [reflexivity|]. split; [reflexivity|].
  split; [apply not_elem_of_nil|]. split; [apply not_elem_of_nil|].
  reflexivity.
Qed.

(** * Further properties of the shim *)

(** ** Where the override applies *)

Lemma resolve_app_None before rest sym :
  resolve before sym = None ->
  resolve (before ++ rest) sym = resolve rest sym.
Proof.
  induction before as [|b before IH]; [done|].
  cbn [app resolve]. destruct (lookup_symbol b sym); [discriminate|]. exact IH.
Qed.

Lemma lookup_symbol_nosync_so ext :
  lookup_symbol (nosync_so ext) "sync" = Some (call_fundef ext sync_def).
Proof. reflexivity. Qed.

(** X1. The shared object is transparent for every symbol other than
    [sync]: whatever [sym] is and wherever the object sits in the search
    order, [sym] resolves to what it resolves to without the object. *)
Theorem nosync_is_transparent_for_other_symbols
    (ext : string -> option cfun) (before after : list shared_object)
    (sym : string) :
  sym <> "sync" ->
  resolve (before ++ nosync_so ext :: after) sym = resolve (before ++ after) sym.
Proof.
  intros Hsym. apply resolve_transparent, lookup_symbol_build.
  rewrite nosync_defined_symbols, list_elem_of_singleton. exact Hsym.
Qed.

Lemma nosync_is_transparent_for_other_symbols_witness :
  "fdatasync" <> "sync" /\
  resolve ([{| so_name := "sgdisk"; so_dynsym := [] |}] ++
           nosync_so (fun _ => None) ::
           [{| so_name := "libc.so.6";
               so_dynsym := [("fdatasync", Other_bodies.failing_flush)] |}])
          "fdatasync" =
  resolve ([{| so_name := "sgdisk"; so_dynsym := [] |}] ++
           [{| so_name := "libc.so.6";
               so_dynsym := [("fdatasync", Other_bodies.failing_flush)] |}])
          "fdatasync".
Proof.
  split; [discriminate|].
  apply (nosync_is_transparent_for_other_symbols (fun _ => None)
           [{| so_name := "sgdisk"; so_dynsym := [] |}]
           [{| so_name := "libc.so.6";
               so_dynsym := [("fdatasync", Other_bodies.failing_flush)] |}]
           "fdatasync").
  discriminate.
Defined.

(** X2. In a process where no object searched before the shim defines
    [sync], the statement [sync();] binds to the override and completes in
    every state, with the state unchanged and no event besides the call
    itself, whatever the objects searched after the shim bind [sync] to
    (a flush that hangs included). *)
Theorem preloaded_sync_statement_is_noop
    (ext : string -> option cfun) (before after : list shared_object)
    (actuals : list Z) (p : process) :
  resolve before "sync" = None ->
  resolve (before ++ nosync_so ext :: after) "sync" =
    Some (call_fundef ext sync_def) /\
  exec_stmt (resolve (before ++ nosync_so ext :: after)) actuals
      (Sexpr (Ecall "sync" [])) p =
    Done Fnext p [EvCall "sync" []] 2%nat.
Proof.
  intros Hbefore.
  assert (resolve (before ++ nosync_so ext :: after) "sync" =
          Some (call_fundef ext sync_def)) as Hres.
  { rewrite resolve_app_None by exact Hbefore.
    apply resolve_first, lookup_symbol_nosync_so. }
  split; [exact Hres|].
  unfold exec_stmt. cbn [eval_expr]. rewrite Hres. reflexivity.
Qed.

Lemma preloaded_sync_statement_is_noop_witness :
  resolve [{| so_name := "sgdisk";
              so_dynsym := [("main", Other_bodies.failing_flush)] |}]
          "sync" = None /\
  exec_stmt
      (resolve ([{| so_name := "sgdisk";
                    so_dynsym := [("main", Other_bodies.failing_flush)] |}] ++
                nosync_so (fun _ => None) ::
                [{| so_name := "libc.so.6";
                    so_dynsym := [("sync", Other_bodies.hanging_flush)] |}]))
      [] (Sexpr (Ecall "sync" [])) Other_bodies.idle_process =
    Done Fnext Other_bodies.idle_process [EvCall "sync" []] 2%nat.
Proof.
  split; [reflexivity|].
  apply (preloaded_sync_statement_is_noop (fun _ => None)
           [{| so_name := "sgdisk";
               so_dynsym := [("main", Other_bodies.failing_flush)] |}]
           [{| so_name := "libc.so.6";
               so_dynsym := [("sync", Other_bodies.hanging_flush)] |}]
           [] Other_bodies.idle_process).
  reflexivity.
Defined.

(** ** Sequencing *)

(** X3. An invocation of [sync] can be put before or after any
    computation [m] without a caller being able to tell: the value, the
    final state and the events are those of [m] alone (and if [m] hangs or
    goes wrong, so does the sequence, in the same way). The only
    difference is one more executed statement. *)
Theorem sync_is_unit_for_sequencing {A : Type} (m : M A) (p : process) :
  obs_eq ((sync ;;; m) p) (m p) /\
  obs_eq ((let* a := m in sync ;;; ret a) p) (m p) /\
  steps_of ((sync ;;; m) p) = S <$> steps_of (m p) /\
  steps_of ((let* a := m in sync ;;; ret a) p) = S <$> steps_of (m p).
Proof.
  unfold bind, sync, tick, ret.
  destruct (m p) as [a p' evs n| |f] eqn:Hm; cbn; rewrite ?Hm; cbn.
  - rewrite app_nil_r. repeat split; f_equal; lia.
  - done.
  - done.
Qed.

(** ** Callers do not depend on each other *)

Section Independence.

Context (ext : string -> option cfun) (callee : fundef).

Lemma run_schedule_cons_threads tid rest c :
  fst (fst (run_schedule ext callee (tid :: rest) c)) =
  fst (fst (run_schedule ext callee rest (fst (step_machine ext callee tid c)))).
Proof.
  cbn [run_schedule]. destruct (step_machine ext callee tid c) as [c1 evs1].
  cbn [fst]. by destruct (run_schedule ext callee rest c1) as [c2 evs2].
Qed.

(** A step of one thread leaves the entries of the others alone. *)
Lemma step_machine_other tid i ths p :
  tid <> i ->
  fst (fst (step_machine ext callee tid (ths, p))) !! i = ths !! i.
Proof.
  intros Hne. unfold step_machine. cbn [fst snd].
  destruct (ths !! tid) as [t|]; [|done].
  destruct (step_thread ext callee t p); cbn [fst]; [|done..].
  by apply list_lookup_insert_ne.
Qed.

Lemma step_machine_length tid ths p :
  length (fst (fst (step_machine ext callee tid (ths, p)))) = length ths.
Proof.
  unfold step_machine. cbn [fst snd].
  destruct (ths !! tid) as [t|]; [|done].
  destruct (step_thread ext callee t p); cbn [fst]; [|done..].
  apply length_insert.
Qed.

(** What a thread scheduled alone becomes depends on its own entry and on
    the shared state only. *)
Lemma run_alone_own_entry c i ths1 ths2 p :
  ths1 !! i = ths2 !! i ->
  fst (fst (run_schedule ext callee (replicate c i) (ths1, p))) !! i =
  fst (fst (run_schedule ext callee (replicate c i) (ths2, p))) !! i.
Proof.
  revert ths1 ths2 p. induction c as [|c IH]; intros ths1 ths2 p Hi; [exact Hi|].
  cbn [replicate]. rewrite !run_schedule_cons_threads.
  unfold step_machine. cbn [fst snd]. rewrite <- Hi.
  destruct (ths1 !! i) as [t|] eqn:H1; [|cbn [fst]; apply IH; congruence].
  destruct (step_thread ext callee t p) as [t' p' evs| | |f]; cbn [fst];
    [|apply IH; congruence..].
  apply IH. rewrite !list_lookup_insert_eq; [done| |].
  - apply lookup_lt_is_Some. rewrite <- Hi. by eexists.
  - apply lookup_lt_is_Some. by eexists.
Qed.

Hypothesis callee_silent : silent_body (fn_body callee).

(** With a silent callee, what a thread has become after a schedule
    depends only on how often the schedule picked it. *)
Lemma run_schedule_own_picks sched i ths p :
  Forall silent_thread ths ->
  fst (fst (run_schedule ext callee sched (ths, p))) !! i =
  fst (fst (run_schedule ext callee
              (replicate (count_occ Nat.eq_dec sched i) i) (ths, p))) !! i.
Proof.
  revert ths. induction sched as [|tid rest IH]; intros ths Hths; [done|].
  rewrite run_schedule_cons_threads.
  destruct (step_machine ext callee tid (ths, p)) as [[ths1 p1] evs1] eqn:Hstep.
  destruct (step_machine_silent ext callee callee_silent _ _ _ _ _ _ Hths Hstep)
    as (-> & -> & Hths1).
  cbn [fst]. rewrite (IH ths1 Hths1).
  destruct (decide (tid = i)) as [->|Hne].
  - rewrite count_occ_cons_eq by done. cbn [replicate].
    rewrite run_schedule_cons_threads, Hstep. done.
  - rewrite count_occ_cons_neq by done.
    apply run_alone_own_entry.
    pose proof (step_machine_other tid i ths p Hne) as Hother.
    by rewrite Hstep in Hother.
Qed.

Lemma run_schedule_length sched ths p :
  length (fst (fst (run_schedule ext callee sched (ths, p)))) = length ths.
Proof.
  revert ths p. induction sched as [|tid rest IH]; intros ths p; [done|].
  rewrite run_schedule_cons_threads.
  destruct (step_machine ext callee tid (ths, p)) as [[ths1 p1] evs1] eqn:Hstep.
  cbn [fst]. rewrite IH.
  pose proof (step_machine_length tid ths p) as Hlen. by rewrite Hstep in Hlen.
Qed.

End Independence.

Section Fair_schedules.

Context (ext : string -> option cfun).

(** A caller that is done stays done, however often it is picked. *)
Lemma run_idle_caller c i ths p :
  ths !! i = Some {| pending := 0; frame := None |} ->
  run_schedule ext sync_def (replicate c i) (ths, p) = ((ths, p), []).
Proof.
  intros Hi. induction c as [|c IH]; [done|].
  cbn [replicate run_schedule]. unfold step_machine. cbn [fst snd].
  rewrite Hi. cbn [step_thread frame pending]. by rewrite IH.
Qed.

(** A caller with [n] invocations to make is done once it has been picked
    [2 * n] times, and further picks change nothing. *)
Lemma run_caller_enough i n c ths p :
  ths !! i = Some {| pending := n; frame := None |} ->
  (2 * n <= c)%nat ->
  run_schedule ext sync_def (replicate c i) (ths, p) =
    ((<[i := {| pending := 0; frame := None |}]> ths, p), []).
Proof.
  intros Hi Hc.
  replace c with (2 * n + (c - 2 * n))%nat by lia.
  rewrite replicate_add, run_schedule_app, (run_one_caller ext i n ths p Hi).
  rewrite run_idle_caller; [done|].
  apply list_lookup_insert_eq. by eapply lookup_lt_Some.
Qed.

Lemma fair_schedule_completes_caller ns sched p i n :
  ns !! i = Some n ->
  (2 * n <= count_occ Nat.eq_dec sched i)%nat ->
  fst (fst (run_schedule ext sync_def sched (callers ns, p))) !! i =
    Some {| pending := 0; frame := None |}.
Proof.
  intros Hi Hc.
  assert (callers ns !! i = Some {| pending := n; frame := None |}) as Hth.
  { unfold callers. by rewrite list_lookup_fmap, Hi. }
  rewrite (run_schedule_own_picks ext sync_def sync_def_silent sched i
             (callers ns) p (callers_silent ns)).
  rewrite (run_caller_enough i n _ _ p Hth Hc). cbn [fst].
  apply list_lookup_insert_eq. by eapply lookup_lt_Some.
Qed.

Lemma finished_lookup ths :
  (forall i t, ths !! i = Some t -> t = {| pending := 0; frame := None |}) ->
  finished ths = true.
Proof.
  induction ths as [|t ths IH]; intros Hall; [done|].
  cbn [finished forallb]. rewrite (Hall 0%nat t eq_refl). cbn.
  apply IH. intros i t' Hi. by apply (Hall (S i)).
Qed.

End Fair_schedules.

(** X4. What a caller of [sync] has become after an interleaving depends
    only on how many scheduling quanta it received itself: it is in the
    state it would be in had it run alone for that many quanta. The steps
    of the other callers, and their order, make no difference to it. *)
Theorem sync_caller_is_independent_of_interleaving
    (ext : string -> option cfun) (ns : list nat) (sched : list nat)
    (p : process) (i : nat) :
  fst (fst (run_schedule ext sync_def sched (callers ns, p))) !! i =
  fst (fst (run_schedule ext sync_def
              (replicate (count_occ Nat.eq_dec sched i) i)
              (callers ns, p))) !! i.
Proof.
  apply run_schedule_own_picks; [apply sync_def_silent | apply callers_silent].
Qed.

(** X5. Every interleaving that gives each caller at least two quanta per
    invocation it has to make completes all invocations of all callers,
    in whatever order the quanta come, and leaves the shared state as it
    was. *)
Theorem fair_schedule_completes_all_sync_callers
    (ext : string -> option cfun) (ns : list nat) (sched : list nat)
    (p : process) :
  (forall i n, ns !! i = Some n ->
               (2 * n <= count_occ Nat.eq_dec sched i)%nat) ->
  finished (fst (fst (run_schedule ext sync_def sched (callers ns, p)))) = true /\
  snd (fst (run_schedule ext sync_def sched (callers ns, p))) = p.
Proof.
  intros Hfair. split.
  - apply finished_lookup. intros i t Hi.
    assert (i < length ns)%nat as Hlt.
    { apply lookup_lt_Some in Hi.
      rewrite run_schedule_length in Hi. unfold callers in Hi.
      by rewrite length_fmap in Hi. }
    destruct (lookup_lt_is_Some_2 ns i Hlt) as [n Hn].
    rewrite (fair_schedule_completes_caller ext ns sched p i n Hn (Hfair i n Hn)) in Hi.
    congruence.
  - destruct (run_schedule ext sync_def sched (callers ns, p))
      as [[ths' p'] evs] eqn:Hrun.
    by destruct (run_schedule_silent ext sync_def sync_def_silent _ _ _ _ _ _
                   (callers_silent ns) Hrun) as (-> & _ & _).
Qed.

Lemma fair_schedule_completes_all_sync_callers_witness :
  (forall i n, [2; 1]%nat !! i = Some n ->
               (2 * n <= count_occ Nat.eq_dec [1; 0; 0; 1; 0; 1; 0]%nat i)%nat) /\
  finished (fst (fst (run_schedule (fun _ => None) sync_def
                        [1; 0; 0; 1; 0; 1; 0]%nat
                        (callers [2; 1]%nat, Other_bodies.idle_process)))) = true /\
  snd (fst (run_schedule (fun _ => None) sync_def
              [1; 0; 0; 1; 0; 1; 0]%nat
              (callers [2; 1]%nat, Other_bodies.idle_process))) =
    Other_bodies.idle_process.
Proof.
  assert (forall i n, [2; 1]%nat !! i = Some n ->
            (2 * n <= count_occ Nat.eq_dec [1; 0; 0; 1; 0; 1; 0]%nat i)%nat) as Hfair.
  { intros [|[|i]] n Hn; simpl in Hn; [| |discriminate];
      injection Hn as <-; simpl; lia. }
  split; [exact Hfair|].
  apply (fair_schedule_completes_all_sync_callers (fun _ => None)
           [2; 1]%nat [1; 0; 0; 1; 0; 1; 0]%nat Other_bodies.idle_process Hfair).
Defined.
